(** * Verification of enterprise/coderd/workspaceproxycoordinate.go

    The two HTTP handlers of the workspace-proxy coordination surface
    ([agentIsLegacy], [workspaceProxyCoordinate]), and the parts of the
    tailnet coordinator they rely on: the per-peer coalescing send queue
    and the multi-agent handle state machine. *)

From Stdlib Require Import ZArith List String Bool Lia.
Import ListNotations.
Open Scope string_scope.
Open Scope list_scope.
Open Scope Z_scope.

(** ** Addresses (net/netip) *)

(** The zone of a [netip.Addr]: the zero Addr, IPv4, IPv6 without zone,
    IPv6 with a zone name. *)
Inductive Zone :=
| ZNone
| Z4
| Z6noz
| Z6 (name : string).

(** [netip.Addr]: 128 bits of address and a zone. *)
Record Addr := mkAddr { addr_bits : Z; addr_z : Zone }.

(** [netip.Prefix]: an address and a prefix length. *)
Record Prefix := mkPrefix { pf_ip : Addr; pf_bits : Z }.

(** [Prefix.Addr()]. *)
Definition Prefix_Addr (p : Prefix) : Addr := pf_ip p.

Definition Zone_eqb (a b : Zone) : bool :=
  match a, b with
  | ZNone, ZNone | Z4, Z4 | Z6noz, Z6noz => true
  | Z6 x, Z6 y => String.eqb x y
  | _, _ => false
  end.

(** [==] on [netip.Addr] compares the 128 address bits and the zone. *)
Definition Addr_eqb (a b : Addr) : bool :=
  Z.eqb (addr_bits a) (addr_bits b) && Zone_eqb (addr_z a) (addr_z b).

(** [codersdk.WorkspaceAgentIP]:
    [netip.MustParseAddr("fd7a:115c:a1e0:49d6:b259:b7ac:b1b2:48f4")]. *)
Definition WorkspaceAgentIP : Addr :=
  mkAddr 0xfd7a115ca1e049d6b259b7acb1b248f4 Z6noz.

(** ** Tailnet nodes *)

(** [tailnet.Node], reduced to its [ID] and its [Addresses]: the only
    field the handlers read is [Addresses]. *)
Record TNode := mkNode { ID : Z; Addresses : list Prefix }.

(** A UUID: 128 bits. *)
Definition UUID := Z.

(** ** Go evaluation with run-time panics *)

(** [None] is a run-time panic (nil dereference, index out of range). *)
Definition go (A : Type) := option A.

Definition deref (p : option TNode) : go TNode := p.

(** [s[i]] on a slice: panics out of range. *)
Definition index {A} (s : list A) (i : nat) : go A := nth_error s i.

(** Go's short-circuit [&&]: the right operand is only evaluated when
    the left one is true. *)
Definition go_and (a : go bool) (b : unit -> go bool) : go bool :=
  match a with
  | Some true => b tt
  | Some false => Some false
  | None => None
  end.

Definition go_bind {A B} (m : go A) (f : A -> go B) : go B :=
  match m with Some a => f a | None => None end.

(** ** HTTP responses *)

(** [codersdk.Response]. *)
Record SdkResponse := mkSdkResponse { Message : string; Detail : string }.

(** [wsproxysdk.AgentIsLegacyResponse]. *)
Record AgentIsLegacyResponse := mkLegacyResp { Found : bool; Legacy : bool }.

Inductive Body :=
| BSdk (r : SdkResponse)
| BLegacy (r : AgentIsLegacyResponse).

Definition StatusOK := 200.
Definition StatusBadRequest := 400.

(** Observable effects of the legacy handler: a lookup in the
    coordinator and [httpapi.Write] calls. *)
Inductive LEvent :=
| LNodeQuery (id : UUID)
| LWrite (status : Z) (body : Body).

Section Legacy.

(** [httpmw.ParseUUIDParam] on the [workspaceagent] path parameter
    (not under src/): whether it parses as a UUID. On a failed parse the
    real function also writes its own error response to [rw] before it
    returns [false]; the trace below records only the handler's own
    effects, and on a successful parse [ParseUUIDParam] writes nothing. *)
Variable ParseUUIDParam : string -> option UUID.

(** [Node] of the coordinator held in [api.AGPL.TailnetCoordinator]: the coordinator's
    current node for a peer, [nil] when it has none. *)
Variable Node : UUID -> option TNode.

(** [api.agentIsLegacy]. The trace of effects, or [None] on a panic. *)
Definition agentIsLegacy (param : string) : go (list LEvent) :=
  match ParseUUIDParam param with
  | None =>
      Some [LWrite StatusBadRequest
              (BSdk (mkSdkResponse "Missing UUID in URL." ""))]
  | Some agentID =>
      let node := Node agentID in
      let found := match node with Some _ => true | None => false end in
      go_bind
        (go_and
           (go_and (Some found)
              (fun _ => go_bind (deref node) (fun n =>
                 Some (Z.ltb 0 (Z.of_nat (List.length (Addresses n)))))))
           (fun _ => go_bind (deref node) (fun n =>
              go_bind (index (Addresses n) 0) (fun a =>
                Some (Addr_eqb (Prefix_Addr a) WorkspaceAgentIP)))))
      (fun legacy =>
      Some [LNodeQuery agentID;
            LWrite StatusOK (BLegacy (mkLegacyResp found legacy))])
  end.

End Legacy.

(** ** [uuid.New] (github.com/google/uuid) *)

(** A [uuid.UUID] ([16]byte) is held as the 128-bit big-endian value of
    its bytes; byte [i] occupies bits [8*(15-i)] to [8*(15-i)+7]. *)
Definition byte_shift (i : nat) : Z := 8 * (15 - Z.of_nat i).

Definition get_byte (u : Z) (i : nat) : Z :=
  Z.land (Z.shiftr u (byte_shift i)) 255.

Definition set_byte (u : Z) (i : nat) (b : Z) : Z :=
  Z.lor (Z.land u (Z.lnot (Z.shiftl 255 (byte_shift i))))
        (Z.shiftl (Z.land b 255) (byte_shift i)).

(** [uuid.NewRandom]: fill the 16 bytes from the random source, then
    [u[6] = (u[6] & 0x0f) | 0x40] (version 4) and
    [u[8] = (u[8] & 0x3f) | 0x80] (variant 10). [rnd] is the value of
    the 16 random bytes read. *)
Definition uuid_New (rnd : Z) : UUID :=
  let u := Z.land rnd (Z.ones 128) in
  let u := set_byte u 6 (Z.lor (Z.land (get_byte u 6) 0x0f) 0x40) in
  set_byte u 8 (Z.lor (Z.land (get_byte u 8) 0x3f) 0x80).

(** The 122 bits of a version-4 UUID taken from the random source. *)
Definition uuid_random_bits : Z :=
  Z.land (Z.ones 128)
    (Z.lnot (Z.lor (Z.shiftl 0xf0 (byte_shift 6)) (Z.shiftl 0xc0 (byte_shift 8)))).

(** ** [workspaceProxyCoordinate] *)

(** [websocket.StatusInternalError]. *)
Definition StatusInternalError := 1011.

(** Effects of the coordinate handler, in program order. The
    [MultiAgentConn] returned by [ServeMultiAgent(id)] is named by the
    peer id it was created with. *)
Inductive CEvent :=
| CWgLock                                 (* WebsocketWaitMutex.Lock() *)
| CWgAdd                                  (* WebsocketWaitGroup.Add(1) *)
| CWgUnlock                               (* WebsocketWaitMutex.Unlock() *)
| CAccept                                 (* websocket.Accept(rw, r, nil) *)
| CWrite (status : Z) (body : SdkResponse) (* httpapi.Write *)
| CServeMultiAgent (id : UUID)            (* coordinator.ServeMultiAgent(id) *)
| CNetConn                                (* websocket.NetConn(ctx, conn, ...) *)
| CServeWorkspaceProxy (sub : UUID)       (* tailnet.ServeWorkspaceProxy(ctx, nc, sub) *)
| CConnClose (code : Z) (reason : string) (* conn.Close(code, reason) *)
| CNcClose                                (* deferred nc.Close() *)
| CWgDone.                                (* deferred WebsocketWaitGroup.Done() *)

(** What the handler's environment decides: the error of
    [websocket.Accept] (if any), the random bytes behind [uuid.New()],
    and the error returned by [ServeWorkspaceProxy] when the stream
    ends (if any). *)
Record CoordEnv := mkCoordEnv {
  accept_err : option string;
  rand_bytes : Z;
  serve_err : option string
}.

(** [api.workspaceProxyCoordinate]. Deferred calls run at return in
    reverse order of registration: [nc.Close()], then
    [WebsocketWaitGroup.Done()]. *)
Definition workspaceProxyCoordinate (env : CoordEnv) : list CEvent :=
  [CWgLock; CWgAdd; CWgUnlock; CAccept] ++
  match accept_err env with
  | Some err =>
      [CWrite StatusBadRequest (mkSdkResponse "Failed to accept websocket." err);
       CWgDone]
  | None =>
      let id := uuid_New (rand_bytes env) in
      [CServeMultiAgent id; CNetConn; CServeWorkspaceProxy id] ++
      match serve_err env with
      | Some err => [CConnClose StatusInternalError err]
      | None => []
      end ++
      [CNcClose; CWgDone]
  end.

(** The peer id the handler binds, when the upgrade succeeded. *)
Definition coordinate_peer_id (env : CoordEnv) : option UUID :=
  match accept_err env with
  | Some _ => None
  | None => Some (uuid_New (rand_bytes env))
  end.

Definition is_http_write (e : CEvent) : bool :=
  match e with CWrite _ _ => true | _ => false end.

(** *** The shared wait group across concurrent handlers *)

(** A run of the server: the interleaved effects of concurrent handler
    invocations, each tagged with the invocation it belongs to. *)
Definition Log := list (nat * CEvent).

Definition proj (i : nat) (log : Log) : list CEvent :=
  map snd (filter (fun p => Nat.eqb (fst p) i) log).

Definition prefix_of {A} (l1 l2 : list A) : Prop := exists l3, l2 = l1 ++ l3.

(** A log is a run of the handlers with environments [envs] when every
    invocation has performed a prefix of its trace. *)
Definition run_of (envs : nat -> CoordEnv) (log : Log) : Prop :=
  forall i, prefix_of (proj i log) (workspaceProxyCoordinate (envs i)).

Definition wg_delta (e : CEvent) : Z :=
  match e with CWgAdd => 1 | CWgDone => -1 | _ => 0 end.

(** The counter of [WebsocketWaitGroup] after a sequence of effects. *)
Definition wg_count (l : list CEvent) : Z := fold_right (fun e c => wg_delta e + c) 0 l.

(** Modelled from the spec: [shutdown()] (not under src/) waits on the
    websocket wait group, and "must not return until every send loop has
    either flushed or its transport has closed": with [sync.WaitGroup]'s
    [Wait], it can return at a point of the run only when the counter is
    zero. *)
Definition shutdown_may_return (log : Log) : bool :=
  Z.eqb (wg_count (map snd log)) 0.

(** An invocation is serving a connection when it has registered with
    the wait group and not yet deregistered. *)
Definition serving (tr : list CEvent) : Prop := In CWgAdd tr /\ ~ In CWgDone tr.

(** ** Per-peer coalescing send queue (tailnet coordinator, not under src/) *)

Section Queue.

(** The coordinator treats nodes as opaque values. *)
Variable NodeT : Type.

(** Updates delivered over a peer's outbound stream. *)
Inductive Update :=
| NodeUpdate (peer_id : UUID) (node : NodeT)
| PeerGone (peer_id : UUID).

Definition upd_for (p : UUID) (e : Update) : bool :=
  match e with NodeUpdate p' _ => Z.eqb p' p | PeerGone _ => false end.

Definition gone_for (p : UUID) (e : Update) : bool :=
  match e with PeerGone p' => Z.eqb p' p | NodeUpdate _ _ => false end.

Definition about (p : UUID) (e : Update) : bool := upd_for p e || gone_for p e.

(** Modelled from the spec: the pending queue of one peer ("a map from
    [peer_id -> slot] for the most recent pending [NodeUpdate] and a FIFO
    of slot references plus [PeerGone] events"). The queue is kept as its
    FIFO, the [NodeUpdate] entries being the slots; [replace_slot] finds
    the pending slot of [p] and replaces its contents in place. *)
Fixpoint replace_slot (p : UUID) (n : NodeT) (q : list Update) : option (list Update) :=
  match q with
  | [] => None
  | e :: q' =>
      if upd_for p e then Some (NodeUpdate p n :: q')
      else option_map (cons e) (replace_slot p n q')
  end.

Definition remove_slot (p : UUID) (q : list Update) : list Update :=
  filter (fun e => negb (upd_for p e)) q.

(** Modelled from the spec: enqueue. A [NodeUpdate] replaces the
    pending one of the same peer, or is appended; a [PeerGone]
    supersedes the pending [NodeUpdate] of its peer and is appended,
    never dropped. *)
Definition enqueue (q : list Update) (u : Update) : list Update :=
  match u with
  | NodeUpdate p n =>
      match replace_slot p n q with
      | Some q' => q'
      | None => q ++ [NodeUpdate p n]
      end
  | PeerGone p => remove_slot p q ++ [PeerGone p]
  end.

(** Modelled from the spec: the updates the send loop transmits when
    [evs] were enqueued onto an empty queue before it drained it (it
    writes the queue in FIFO order). *)
Definition transmitted (evs : list Update) : list Update :=
  fold_left enqueue evs [].

(** The last [NodeUpdate] for [p] not followed by a [PeerGone] for [p]. *)
Definition pending_node (p : UUID) (evs : list Update) : option NodeT :=
  fold_left (fun acc e =>
    match e with
    | NodeUpdate p' n => if Z.eqb p' p then Some n else acc
    | PeerGone p' => if Z.eqb p' p then None else acc
    end) evs None.

End Queue.

Arguments NodeUpdate {NodeT}.
Arguments PeerGone {NodeT}.
Arguments upd_for {NodeT}.
Arguments gone_for {NodeT}.
Arguments about {NodeT}.
Arguments replace_slot {NodeT}.
Arguments remove_slot {NodeT}.
Arguments enqueue {NodeT}.
Arguments transmitted {NodeT}.
Arguments pending_node {NodeT}.

(** ** Multi-agent handle (tailnet MultiAgent, not under src/) *)

Inductive MAError := ErrClosed.

(** Result of [next_update()]: a batch with [more = true], the final
    [more = false], a call that would block on an empty open queue, or an
    error. *)
Inductive NextResult (NodeT : Type) :=
| NBatch (b : list NodeT)
| NEnd
| NBlocked
| NErr (e : MAError).

Arguments NBatch {NodeT}.
Arguments NEnd {NodeT}.
Arguments NBlocked {NodeT}.
Arguments NErr {NodeT}.

Section MultiAgent.

Variable NodeT : Type.

(** Modelled from the spec (section 4.6): the state of a multi-agent
    handle after registration: open or closed, its subscriptions, its
    own node, its queue of pending batches, and whether [more = false]
    has been delivered. *)
Record MAState := mkMA {
  ma_closed : bool;
  ma_subs : list UUID;
  ma_self : option NodeT;
  ma_queue : list (list NodeT);
  ma_end_sent : bool
}.

Definition ma_set_subs (s : MAState) (subs : list UUID) : MAState :=
  mkMA (ma_closed s) subs (ma_self s) (ma_queue s) (ma_end_sent s).

(** Modelled from the spec: [subscribe_agent] (idempotent add). *)
Definition subscribe_agent (s : MAState) (a : UUID) : option MAError * MAState :=
  if ma_closed s then (Some ErrClosed, s)
  else if existsb (Z.eqb a) (ma_subs s) then (None, s)
  else (None, ma_set_subs s (ma_subs s ++ [a])).

(** Modelled from the spec: [unsubscribe_agent] (idempotent remove). *)
Definition unsubscribe_agent (s : MAState) (a : UUID) : option MAError * MAState :=
  if ma_closed s then (Some ErrClosed, s)
  else (None, ma_set_subs s (filter (fun b => negb (Z.eqb a b)) (ma_subs s))).

(** Modelled from the spec: [update_self]. *)
Definition update_self (s : MAState) (n : NodeT) : option MAError * MAState :=
  if ma_closed s then (Some ErrClosed, s)
  else (None, mkMA false (ma_subs s) (Some n) (ma_queue s) (ma_end_sent s)).

(** Modelled from the spec: [close] ("Multi-agent double-close: return
    ErrClosed"). *)
Definition ma_close (s : MAState) : option MAError * MAState :=
  if ma_closed s then (Some ErrClosed, s)
  else (None, mkMA true (ma_subs s) (ma_self s) (ma_queue s) (ma_end_sent s)).

Definition is_closed (s : MAState) : bool := ma_closed s.

(** Modelled from the spec: [next_update] pops the next batch; once a
    closed handle's queue has drained it returns [more = false] once,
    and after that fails with [ErrClosed] like every other operation. *)
Definition next_update (s : MAState) : NextResult NodeT * MAState :=
  match ma_queue s with
  | b :: q => (NBatch b, mkMA (ma_closed s) (ma_subs s) (ma_self s) q (ma_end_sent s))
  | [] =>
      if ma_closed s then
        if ma_end_sent s then (NErr ErrClosed, s)
        else (NEnd, mkMA true (ma_subs s) (ma_self s) [] true)
      else (NBlocked, s)
  end.

(** The results of [k] successive calls of [next_update]. *)
Fixpoint run_next (k : nat) (s : MAState) : list (NextResult NodeT) :=
  match k with
  | O => []
  | S k' => let '(r, s') := next_update s in r :: run_next k' s'
  end.

End MultiAgent.

Arguments mkMA {NodeT}.

(** * Theorems *)

(** ** The legacy endpoint *)

Lemma Zone_eqb_eq (a b : Zone) : Zone_eqb a b = true <-> a = b.
Proof.
  destruct a, b; simpl; split; intro H; try congruence; try reflexivity.
  - apply String.eqb_eq in H; subst; reflexivity.
  - inversion H; subst; apply String.eqb_refl.
Qed.

Lemma Addr_eqb_eq (a b : Addr) : Addr_eqb a b = true <-> a = b.
Proof.
  destruct a as [x zx], b as [y zy]; unfold Addr_eqb; simpl.
  rewrite andb_true_iff, Z.eqb_eq, Zone_eqb_eq.
  split; [intros [-> ->]; reflexivity | intro H; inversion H; auto].
Qed.

(** The handler on a parsed id, evaluated: the [Legacy] field is the
    short-circuit conjunction of the three checks. *)
Lemma agentIsLegacy_parsed parse node param id :
  parse param = Some id ->
  agentIsLegacy parse node param =
  Some [LNodeQuery id;
        LWrite StatusOK
          (BLegacy (mkLegacyResp
             (match node id with Some _ => true | None => false end)
             (match node id with
              | Some n =>
                  match Addresses n with
                  | a :: _ => Addr_eqb (Prefix_Addr a) WorkspaceAgentIP
                  | [] => false
                  end
              | None => false
              end)))].
Proof.
  intro Hp; unfold agentIsLegacy; rewrite Hp.
  destruct (node id) as [n|]; simpl; [|reflexivity].
  destruct (Addresses n); reflexivity.
Qed.

Example agentIsLegacy_ex_legacy :
  agentIsLegacy (fun _ => Some 7) (fun _ => Some (mkNode 1 [mkPrefix WorkspaceAgentIP 128])) "x"%string
  = Some [LNodeQuery 7; LWrite StatusOK (BLegacy (mkLegacyResp true true))].
Proof. reflexivity. Qed.

Example agentIsLegacy_ex_missing :
  agentIsLegacy (fun _ => Some 7) (fun _ => None) "x"%string
  = Some [LNodeQuery 7; LWrite StatusOK (BLegacy (mkLegacyResp false false))].
Proof. reflexivity. Qed.

(** C1: for a request whose path parameter parses as the UUID [id], the
    handler queries the coordinator for [id] and writes 200 with
    [{found, legacy}], where [found] holds iff the coordinator has a node
    for [id], and [legacy] holds iff it has one whose first address is
    [codersdk.WorkspaceAgentIP]. *)
Theorem agentIsLegacy_response parse node param id :
  parse param = Some id ->
  exists found legacy,
    agentIsLegacy parse node param =
      Some [LNodeQuery id; LWrite StatusOK (BLegacy (mkLegacyResp found legacy))] /\
    (found = true <-> node id <> None) /\
    (legacy = true <->
       found = true /\
       exists n a rest, node id = Some n /\ Addresses n = a :: rest /\
                        Prefix_Addr a = WorkspaceAgentIP).
Proof.
  intro Hp; rewrite (agentIsLegacy_parsed parse node param id Hp).
  eexists; eexists; split; [reflexivity|].
  destruct (node id) as [n|]; split.
  - split; [congruence | reflexivity].
  - destruct (Addresses n) as [|a rest] eqn:Ha.
    + split; [discriminate|].
      intros [_ (n' & a & rest & Hn & Ha' & _)].
      inversion Hn; subst; congruence.
    + rewrite Addr_eqb_eq; split.
      * intro H; split; [reflexivity|]; exists n, a, rest; auto.
      * intros [_ (n' & a' & rest' & Hn & Ha' & He)].
        inversion Hn; subst; rewrite Ha in Ha'; inversion Ha'; subst; exact He.
  - split; [discriminate | intro H; contradiction H; reflexivity].
  - split; [discriminate|].
    intros [H _]; discriminate.
Qed.

Lemma agentIsLegacy_response_witness :
  (fun _ : string => Some 7) "x"%string = Some 7 /\
  exists found legacy,
    agentIsLegacy (fun _ => Some 7) (fun _ => Some (mkNode 1 [mkPrefix WorkspaceAgentIP 128])) "x"%string =
      Some [LNodeQuery 7; LWrite StatusOK (BLegacy (mkLegacyResp found legacy))] /\
    (found = true <-> Some (mkNode 1 [mkPrefix WorkspaceAgentIP 128]) <> None) /\
    (legacy = true <->
       found = true /\
       exists n a rest, Some (mkNode 1 [mkPrefix WorkspaceAgentIP 128]) = Some n /\
         Addresses n = a :: rest /\ Prefix_Addr a = WorkspaceAgentIP).
Proof.
  split; [reflexivity|].
  exact (agentIsLegacy_response (fun _ => Some 7)
           (fun _ => Some (mkNode 1 [mkPrefix WorkspaceAgentIP 128])) "x"%string 7 eq_refl).
Defined.

(** C3: when the coordinator has no node for the agent, the handler
    answers [found = false] (and [legacy = false]), and the answer is the
    same for any two coordinator states without a node for it: an agent
    that never connected and one that disconnected are answered alike. *)
Theorem agentIsLegacy_not_connected parse node1 node2 param id :
  parse param = Some id -> node1 id = None -> node2 id = None ->
  agentIsLegacy parse node1 param = agentIsLegacy parse node2 param /\
  agentIsLegacy parse node1 param =
    Some [LNodeQuery id; LWrite StatusOK (BLegacy (mkLegacyResp false false))].
Proof.
  intros Hp H1 H2.
  rewrite (agentIsLegacy_parsed parse node1 param id Hp),
          (agentIsLegacy_parsed parse node2 param id Hp), H1, H2.
  split; reflexivity.
Qed.

Lemma agentIsLegacy_not_connected_witness :
  agentIsLegacy (fun _ => Some 7) (fun _ => None) "x"%string =
    agentIsLegacy (fun _ => Some 7) (fun i => if Z.eqb i 7 then None else Some (mkNode 2 [])) "x"%string /\
  agentIsLegacy (fun _ => Some 7) (fun _ => None) "x"%string =
    Some [LNodeQuery 7; LWrite StatusOK (BLegacy (mkLegacyResp false false))].
Proof.
  apply (agentIsLegacy_not_connected (fun _ => Some 7) (fun _ => None)
           (fun i => if Z.eqb i 7 then None else Some (mkNode 2 [])) "x"%string 7);
    reflexivity.
Defined.

(** C9: the handler never panics (no nil dereference, no out-of-range
    index); for a node with no addresses it answers [found = true],
    [legacy = false]; and whenever it answers [legacy = true], the
    coordinator has a node for the agent, that node has at least one
    address, and its first address is [codersdk.WorkspaceAgentIP]. *)
Theorem agentIsLegacy_total parse node param :
  agentIsLegacy parse node param <> None /\
  (forall id n, parse param = Some id -> node id = Some n -> Addresses n = [] ->
    agentIsLegacy parse node param =
      Some [LNodeQuery id; LWrite StatusOK (BLegacy (mkLegacyResp true false))]) /\
  (forall evs found, agentIsLegacy parse node param = Some evs ->
    In (LWrite StatusOK (BLegacy (mkLegacyResp found true))) evs ->
    exists id n a rest,
      parse param = Some id /\ node id = Some n /\ found = true /\
      Addresses n = a :: rest /\ Prefix_Addr a = WorkspaceAgentIP).
Proof.
  split; [|split].
  - unfold agentIsLegacy; destruct (parse param) as [id|]; [|discriminate].
    destruct (node id) as [n|]; simpl; [|discriminate].
    destruct (Addresses n); discriminate.
  - intros id n Hp Hn Ha.
    rewrite (agentIsLegacy_parsed parse node param id Hp), Hn, Ha; reflexivity.
  - intros evs found Hevs Hin.
    destruct (parse param) as [id|] eqn:Hp.
    + rewrite (agentIsLegacy_parsed parse node param id Hp) in Hevs.
      inversion Hevs; subst evs; clear Hevs.
      destruct Hin as [Hin|[Hin|[]]]; [discriminate|].
      destruct (node id) as [n|] eqn:Hn; [|discriminate].
      destruct (Addresses n) as [|a rest] eqn:Ha; [discriminate|].
      injection Hin as Hf Hl.
      apply Addr_eqb_eq in Hl.
      exists id, n, a, rest; subst found; auto.
    + unfold agentIsLegacy in Hevs; rewrite Hp in Hevs.
      inversion Hevs; subst evs; clear Hevs.
      destruct Hin as [Hin|[]]; inversion Hin.
Qed.

Lemma agentIsLegacy_total_witness :
  agentIsLegacy (fun _ => Some 7) (fun _ => Some (mkNode 3 [])) "x"%string <> None /\
  agentIsLegacy (fun _ => Some 7) (fun _ => Some (mkNode 3 [])) "x"%string =
    Some [LNodeQuery 7; LWrite StatusOK (BLegacy (mkLegacyResp true false))] /\
  exists id n a rest,
    Some 7 = Some id /\ Some (mkNode 1 [mkPrefix WorkspaceAgentIP 128]) = Some n /\
    true = true /\ Addresses n = a :: rest /\ Prefix_Addr a = WorkspaceAgentIP.
Proof.
  destruct (agentIsLegacy_total (fun _ => Some 7) (fun _ => Some (mkNode 3 [])) "x"%string) as [H1 [H2 _]].
  split; [exact H1|].
  split; [apply (H2 7 (mkNode 3 [])); reflexivity|].
  destruct (agentIsLegacy_total (fun _ => Some 7)
              (fun _ => Some (mkNode 1 [mkPrefix WorkspaceAgentIP 128])) "x"%string)
    as [_ [_ H3]].
  apply (H3 [LNodeQuery 7; LWrite StatusOK (BLegacy (mkLegacyResp true true))] true);
    [reflexivity | simpl; tauto].
Defined.

(** ** The coordinate endpoint *)

Example workspaceProxyCoordinate_ex_ok :
  workspaceProxyCoordinate (mkCoordEnv None 0 (Some "eof")) =
  [CWgLock; CWgAdd; CWgUnlock; CAccept;
   CServeMultiAgent 0x00000000000040008000000000000000; CNetConn;
   CServeWorkspaceProxy 0x00000000000040008000000000000000;
   CConnClose StatusInternalError "eof"; CNcClose; CWgDone].
Proof. reflexivity. Qed.

(** C4: when the websocket upgrade succeeds, the handler obtains a
    multi-agent handle from [ServeMultiAgent] with a peer id, wraps the
    websocket as a stream, and serves the proxy over that stream with
    that handle; the stream is closed only after serving has ended. *)
Theorem workspaceProxyCoordinate_binds env :
  accept_err env = None ->
  exists id,
    workspaceProxyCoordinate env =
      [CWgLock; CWgAdd; CWgUnlock; CAccept;
       CServeMultiAgent id; CNetConn; CServeWorkspaceProxy id] ++
      match serve_err env with
      | Some err => [CConnClose StatusInternalError err]
      | None => []
      end ++ [CNcClose; CWgDone].
Proof.
  intro Ha; exists (uuid_New (rand_bytes env)).
  unfold workspaceProxyCoordinate; rewrite Ha; reflexivity.
Qed.

Lemma workspaceProxyCoordinate_binds_witness :
  accept_err (mkCoordEnv None 3 None) = None /\
  exists id,
    workspaceProxyCoordinate (mkCoordEnv None 3 None) =
      [CWgLock; CWgAdd; CWgUnlock; CAccept;
       CServeMultiAgent id; CNetConn; CServeWorkspaceProxy id] ++
      match serve_err (mkCoordEnv None 3 None) with
      | Some err => [CConnClose StatusInternalError err]
      | None => []
      end ++ [CNcClose; CWgDone].
Proof.
  split; [reflexivity|].
  apply (workspaceProxyCoordinate_binds (mkCoordEnv None 3 None)); reflexivity.
Defined.

(** C5: the handler writes an HTTP status exactly when the websocket
    upgrade fails, and then it is 400; once upgraded it writes no HTTP
    status, and an error of the serving loop is reported by closing the
    websocket with [StatusInternalError]. *)
Theorem workspaceProxyCoordinate_http_status env :
  (existsb is_http_write (workspaceProxyCoordinate env) = true <->
   accept_err env <> None) /\
  (forall st b, In (CWrite st b) (workspaceProxyCoordinate env) ->
     st = StatusBadRequest /\ 400 <= st < 500) /\
  (forall err, accept_err env = None -> serve_err env = Some err ->
     In (CConnClose StatusInternalError err) (workspaceProxyCoordinate env)).
Proof.
  unfold workspaceProxyCoordinate.
  destruct (accept_err env) as [aerr|]; [|destruct (serve_err env) as [serr|]];
    simpl; repeat split; intros; try congruence;
    repeat match goal with
           | H : _ \/ _ |- _ => destruct H
           | H : False |- _ => destruct H
           | H : CWrite _ _ = CWrite _ _ |- _ => inversion H; subst; clear H
           | H : _ = CWrite _ _ |- _ => discriminate H
           | H : CConnClose _ _ = CConnClose _ _ |- _ => inversion H; subst; clear H
           end;
    unfold StatusBadRequest; try lia; auto 10.
  inversion H0; subst; simpl; tauto.
Qed.

(** ** [uuid.New] as a bit mask *)

(** The version and variant bits [uuid.New] forces. *)
Definition uuid_version_bits : Z :=
  Z.lor (Z.shiftl 0x40 (byte_shift 6)) (Z.shiftl 0x80 (byte_shift 8)).

Lemma testbit_set_byte_out u i b n :
  (i <= 15)%nat -> 0 <= n -> ~ (byte_shift i <= n < byte_shift i + 8) ->
  Z.testbit (set_byte u i b) n = Z.testbit u n.
Proof.
  intros Hi Hn Hr; unfold set_byte.
  rewrite Z.lor_spec, Z.land_spec, Z.lnot_spec by lia.
  destruct (Z.ltb_spec n (byte_shift i)).
  - rewrite !Z.shiftl_spec_low by lia; rewrite andb_true_r, orb_false_r; reflexivity.
  - rewrite !Z.shiftl_spec by lia.
    change 255 with (Z.ones 8).
    rewrite Z.land_spec, !Z.testbit_ones_nonneg by lia.
    replace (n - byte_shift i <? 8) with false by (symmetry; apply Z.ltb_ge; lia).
    rewrite andb_false_r, andb_true_r, orb_false_r; reflexivity.
Qed.

Lemma testbit_set_byte_in u i b n :
  (i <= 15)%nat -> byte_shift i <= n < byte_shift i + 8 ->
  Z.testbit (set_byte u i b) n = Z.testbit b (n - byte_shift i).
Proof.
  intros Hi Hr; unfold set_byte.
  assert (0 <= byte_shift i) by (unfold byte_shift; lia).
  rewrite Z.lor_spec, Z.land_spec, Z.lnot_spec by lia.
  rewrite !Z.shiftl_spec by lia.
  change 255 with (Z.ones 8).
  rewrite Z.land_spec, !Z.testbit_ones_nonneg by lia.
  replace (n - byte_shift i <? 8) with true by (symmetry; apply Z.ltb_lt; lia).
  rewrite andb_false_r, andb_true_r; reflexivity.
Qed.

Lemma testbit_get_byte u i m :
  (i <= 15)%nat -> 0 <= m ->
  Z.testbit (get_byte u i) m = (m <? 8) && Z.testbit u (m + byte_shift i).
Proof.
  intros Hi Hm; unfold get_byte.
  assert (0 <= byte_shift i) by (unfold byte_shift; lia).
  change 255 with (Z.ones 8).
  rewrite Z.land_spec, Z.shiftr_spec, Z.testbit_ones_nonneg by lia.
  apply andb_comm.
Qed.

Ltac uuid_bit :=
  unfold uuid_New;
  repeat first
    [ rewrite testbit_set_byte_in by (unfold byte_shift; simpl; lia)
    | rewrite testbit_set_byte_out by (unfold byte_shift; simpl; lia)
    | rewrite Z.lor_spec
    | rewrite Z.land_spec
    | rewrite testbit_get_byte by lia
    | progress (unfold byte_shift; simpl Z.of_nat; simpl Z.sub; simpl Z.mul; simpl Z.add) ];
  repeat match goal with
         | |- context [Z.testbit ?x ?k] => is_var x; destruct (Z.testbit x k)
         end; reflexivity.

(** [uuid.New] keeps the 122 random bits of the draw and sets the
    version and variant bits. *)
Lemma uuid_New_mask rnd :
  uuid_New rnd = Z.lor (Z.land rnd uuid_random_bits) uuid_version_bits.
Proof.
  apply Z.bits_inj'; intros n Hn.
  destruct (Z.ltb_spec n 128) as [Hlt|Hge].
  - replace n with (Z.of_nat (Z.to_nat n)) by lia.
    assert (Hk : (Z.to_nat n < 128)%nat) by lia.
    generalize (Z.to_nat n) Hk; clear n Hn Hlt Hk; intros k Hk.
    do 128 (destruct k as [|k]; [uuid_bit|]); lia.
  - unfold uuid_New.
    rewrite !testbit_set_byte_out by (unfold byte_shift; simpl; lia).
    unfold uuid_random_bits.
    rewrite Z.lor_spec, !Z.land_spec, Z.testbit_ones_nonneg by lia.
    replace (n <? 128) with false by (symmetry; apply Z.ltb_ge; lia).
    rewrite ?andb_false_r, ?andb_false_l, ?orb_false_l.
    assert (Hlog : Z.log2 uuid_version_bits = 78) by reflexivity.
    rewrite Z.bits_above_log2; [reflexivity| |lia].
    unfold uuid_version_bits, byte_shift; simpl; lia.
Qed.

Lemma uuid_New_range rnd : 0 <= uuid_New rnd < 2 ^ 128.
Proof.
  assert (E : uuid_New rnd = Z.land (uuid_New rnd) (Z.ones 128)).
  { apply Z.bits_inj'; intros n Hn.
    rewrite Z.land_spec, Z.testbit_ones_nonneg by lia.
    destruct (Z.ltb_spec n 128); [rewrite andb_true_r; reflexivity|].
    rewrite andb_false_r, uuid_New_mask, Z.lor_spec, Z.land_spec.
    unfold uuid_random_bits; rewrite Z.land_spec, Z.testbit_ones_nonneg by lia.
    replace (n <? 128) with false by (symmetry; apply Z.ltb_ge; lia).
    rewrite andb_false_l, andb_false_r, orb_false_l.
    assert (Hlog : Z.log2 uuid_version_bits = 78) by reflexivity.
    apply Z.bits_above_log2; [unfold uuid_version_bits, byte_shift; simpl; lia | lia]. }
  rewrite E, Z.land_ones by lia.
  apply Z.mod_pos_bound; lia.
Qed.

Lemma uuid_New_eq_iff r1 r2 :
  uuid_New r1 = uuid_New r2 <->
  Z.land r1 uuid_random_bits = Z.land r2 uuid_random_bits.
Proof.
  rewrite !uuid_New_mask; split; [intro H | intro H; rewrite H; reflexivity].
  assert (K : forall r, Z.land (Z.lor (Z.land r uuid_random_bits) uuid_version_bits)
                               uuid_random_bits = Z.land r uuid_random_bits).
  { intro r; apply Z.bits_inj'; intros n Hn.
    assert (D : Z.testbit (Z.land uuid_version_bits uuid_random_bits) n = false)
      by (replace (Z.land uuid_version_bits uuid_random_bits) with 0 by reflexivity;
          apply Z.testbit_0_l).
    rewrite Z.land_spec in D.
    rewrite !Z.land_spec, Z.lor_spec, Z.land_spec.
    destruct (Z.testbit r n), (Z.testbit uuid_random_bits n),
             (Z.testbit uuid_version_bits n); simpl in *; congruence. }
  rewrite <- (K r1), <- (K r2), H; reflexivity.
Qed.

(** [uuid.New] sets the version nibble (4) and the variant bits ([10]). *)
Lemma uuid_New_v4 rnd :
  Z.shiftr (get_byte (uuid_New rnd) 6) 4 = 4 /\
  Z.shiftr (get_byte (uuid_New rnd) 8) 6 = 2.
Proof.
  rewrite uuid_New_mask; split; apply Z.bits_inj'; intros m Hm;
    rewrite Z.shiftr_spec, testbit_get_byte by lia.
  - destruct (Z.ltb_spec m 4) as [Hlt|Hge].
    + replace m with (Z.of_nat (Z.to_nat m)) by lia.
      assert (Hk : (Z.to_nat m < 4)%nat) by lia.
      generalize (Z.to_nat m) Hk; clear m Hm Hlt Hk; intros k Hk.
      do 4 (destruct k as [|k];
            [rewrite Z.lor_spec, Z.land_spec; destruct (Z.testbit rnd _); reflexivity|]);
        lia.
    + replace (m + 4 <? 8) with false by (symmetry; apply Z.ltb_ge; lia).
      symmetry; apply Z.bits_above_log2; [lia | simpl; lia].
  - destruct (Z.ltb_spec m 2) as [Hlt|Hge].
    + replace m with (Z.of_nat (Z.to_nat m)) by lia.
      assert (Hk : (Z.to_nat m < 2)%nat) by lia.
      generalize (Z.to_nat m) Hk; clear m Hm Hlt Hk; intros k Hk.
      do 2 (destruct k as [|k];
            [rewrite Z.lor_spec, Z.land_spec; destruct (Z.testbit rnd _); reflexivity|]);
        lia.
    + replace (m + 6 <? 8) with false by (symmetry; apply Z.ltb_ge; lia).
      symmetry; apply Z.bits_above_log2; [lia | simpl; lia].
Qed.

(** C7 (amended): the peer id of the multi-agent client bound by the
    coordinate endpoint is a 128-bit version-4 UUID that the handler
    generates itself with [uuid.New()] and passes to [ServeMultiAgent];
    the handler compares it with no other id, so two invocations bind
    the same id exactly when their random draws agree on the 122 random
    bits of a UUID. *)
Theorem coordinate_peer_id_uuid env r1 r2 :
  (forall id, coordinate_peer_id env = Some id ->
     id = uuid_New (rand_bytes env) /\ 0 <= id < 2 ^ 128 /\
     Z.shiftr (get_byte id 6) 4 = 4 /\ Z.shiftr (get_byte id 8) 6 = 2 /\
     In (CServeMultiAgent id) (workspaceProxyCoordinate env)) /\
  (uuid_New r1 = uuid_New r2 <->
   Z.land r1 uuid_random_bits = Z.land r2 uuid_random_bits).
Proof.
  split; [|apply uuid_New_eq_iff].
  intros id; unfold coordinate_peer_id, workspaceProxyCoordinate.
  destruct (accept_err env); [discriminate|].
  intro H; inversion H; subst; clear H.
  split; [reflexivity|]; split; [apply uuid_New_range|].
  destruct (uuid_New_v4 (rand_bytes env)) as [Hv Hw].
  split; [exact Hv|]; split; [exact Hw|].
  simpl; tauto.
Qed.

Lemma coordinate_peer_id_uuid_witness :
  coordinate_peer_id (mkCoordEnv None 5 None) = Some (uuid_New 5) /\
  uuid_New 5 = uuid_New 5 /\ 0 <= uuid_New 5 < 2 ^ 128 /\
  Z.shiftr (get_byte (uuid_New 5) 6) 4 = 4 /\ Z.shiftr (get_byte (uuid_New 5) 8) 6 = 2.
Proof.
  destruct (coordinate_peer_id_uuid (mkCoordEnv None 5 None) 5 5) as [H1 H2].
  destruct (H1 (uuid_New 5) eq_refl) as (_ & Hr & Hv & Hw & _).
  split; [reflexivity|].
  split; [apply H2; reflexivity|].
  auto.
Defined.

(** C7 counterexample: nothing keeps the handler from binding an id that
    is already in use. Two invocations with different random draws (the
    draws differ only in bits [uuid.New] overwrites) bind the same peer
    id, and an invocation can bind the id of an agent the coordinator
    serves (agent ids are UUIDs of the same type). *)
Lemma coordinate_peer_id_reuse_cex :
  rand_bytes (mkCoordEnv None 0 None) <> rand_bytes (mkCoordEnv None (Z.shiftl 0xf0 72) None) /\
  coordinate_peer_id (mkCoordEnv None 0 None) =
    coordinate_peer_id (mkCoordEnv None (Z.shiftl 0xf0 72) None) /\
  coordinate_peer_id (mkCoordEnv None 0 None) <> None /\
  exists agent_id node,
    agentIsLegacy (fun _ => Some agent_id) (fun _ => Some node) "a" =
      Some [LNodeQuery agent_id; LWrite StatusOK (BLegacy (mkLegacyResp true false))] /\
    coordinate_peer_id (mkCoordEnv None 0 None) = Some agent_id.
Proof.
  split; [discriminate|].
  split; [reflexivity|].
  split; [discriminate|].
  exists (uuid_New 0), (mkNode 1 []); split; reflexivity.
Qed.

(** ** The wait group and [shutdown] *)

Lemma wg_count_app l1 l2 : wg_count (l1 ++ l2) = wg_count l1 + wg_count l2.
Proof. induction l1 as [|e l1 IH]; simpl; [reflexivity | rewrite IH; lia]. Qed.

Definition no_wg (e : CEvent) : Prop := e <> CWgAdd /\ e <> CWgDone.

Lemma wg_count_no_wg m : Forall no_wg m -> wg_count m = 0.
Proof.
  induction 1 as [|e m [Ha Hd] _ IH]; simpl; [reflexivity|].
  rewrite IH; destruct e; try reflexivity; congruence.
Qed.

Lemma trace_shape env :
  exists m, workspaceProxyCoordinate env = CWgLock :: CWgAdd :: m ++ [CWgDone] /\
            Forall no_wg m.
Proof.
  unfold workspaceProxyCoordinate.
  destruct (accept_err env) as [err|]; [|destruct (serve_err env) as [serr|]].
  - exists [CWgUnlock; CAccept;
            CWrite StatusBadRequest (mkSdkResponse "Failed to accept websocket." err)].
    split; [reflexivity | repeat constructor; discriminate].
  - exists [CWgUnlock; CAccept; CServeMultiAgent (uuid_New (rand_bytes env)); CNetConn;
            CServeWorkspaceProxy (uuid_New (rand_bytes env));
            CConnClose StatusInternalError serr; CNcClose].
    split; [reflexivity | repeat constructor; discriminate].
  - exists [CWgUnlock; CAccept; CServeMultiAgent (uuid_New (rand_bytes env)); CNetConn;
            CServeWorkspaceProxy (uuid_New (rand_bytes env)); CNcClose].
    split; [reflexivity | repeat constructor; discriminate].
Qed.

Lemma app_snoc_split {A} (p q m : list A) (x : A) :
  p ++ q = m ++ [x] -> (exists r, m = p ++ r) \/ p = m ++ [x].
Proof.
  revert m; induction p as [|a p IH]; intros m H.
  - left; exists m; reflexivity.
  - destruct m as [|b m]; simpl in H.
    + inversion H as [[Ha Hpq]]; subst.
      destruct p; [destruct q; [right; reflexivity | discriminate] | discriminate].
    + inversion H as [[Hab Hpq]]; subst.
      destruct (IH m Hpq) as [[r Hr] | Hr]; [left; exists r | right]; subst; reflexivity.
Qed.

Lemma prefix_wg_count env p :
  prefix_of p (workspaceProxyCoordinate env) ->
  0 <= wg_count p /\ (serving p -> wg_count p = 1).
Proof.
  destruct (trace_shape env) as [m [Ht Hm]]; rewrite Ht; intros [q Hq].
  unfold serving.
  destruct p as [|e1 p]; [simpl; split; [lia | intros [[] _]]|].
  inversion Hq as [[He1 Hq']]; subst e1.
  destruct p as [|e2 p]; [simpl; split; [lia | intros [[H|[]] _]; discriminate]|].
  inversion Hq' as [[He2 Hq'']]; subst e2.
  destruct (app_snoc_split _ _ _ _ (eq_sym Hq'')) as [[r Hr] | Hr]; subst.
  - apply Forall_app in Hm as [Hp _].
    simpl; rewrite (wg_count_no_wg p Hp); split; [lia | reflexivity].
  - simpl; rewrite wg_count_app, (wg_count_no_wg m Hm); simpl; split; [lia|].
    intros [_ Hn]; exfalso; apply Hn; right; right; apply in_or_app; right; left; reflexivity.
Qed.

Definition rest (i : nat) (log : Log) : Log :=
  filter (fun p => negb (Nat.eqb (fst p) i)) log.

Lemma wg_count_split i log :
  wg_count (map snd log) = wg_count (proj i log) + wg_count (map snd (rest i log)).
Proof.
  unfold proj, rest; induction log as [|[j e] log IH]; simpl; [reflexivity|].
  destruct (Nat.eqb j i); simpl; rewrite IH; lia.
Qed.

Lemma proj_rest i j log :
  proj j (rest i log) = if Nat.eqb j i then [] else proj j log.
Proof.
  unfold proj, rest; induction log as [|[k e] log IH]; simpl.
  - destruct (Nat.eqb j i); reflexivity.
  - destruct (Nat.eqb k i) eqn:Hki, (Nat.eqb k j) eqn:Hkj, (Nat.eqb j i) eqn:Hji;
      try rewrite Hji in IH; simpl; rewrite ?Hkj; simpl; rewrite ?IH; try reflexivity;
      repeat match goal with H : Nat.eqb _ _ = true |- _ => apply Nat.eqb_eq in H end;
      subst; rewrite ?Nat.eqb_refl in *; congruence.
Qed.

Lemma run_of_rest envs log i : run_of envs log -> run_of envs (rest i log).
Proof.
  intros H j; rewrite proj_rest.
  destruct (Nat.eqb j i); [eexists; reflexivity | apply H].
Qed.

Lemma rest_length i e log : (List.length (rest i ((i, e) :: log)) <= List.length log)%nat.
Proof.
  unfold rest; simpl; rewrite Nat.eqb_refl; simpl; apply filter_length_le.
Qed.

Lemma run_wg_nonneg envs log : run_of envs log -> 0 <= wg_count (map snd log).
Proof.
  remember (List.length log) as n eqn:Hn; assert (Hle : (List.length log <= n)%nat) by lia.
  clear Hn; revert log Hle; induction n as [|n IH]; intros log Hle Hrun.
  - destruct log; [simpl; lia | simpl in Hle; lia].
  - destruct log as [|[i e] log']; [simpl; lia|].
    rewrite (wg_count_split i).
    destruct (prefix_wg_count (envs i) _ (Hrun i)) as [H0 _].
    assert (0 <= wg_count (map snd (rest i ((i, e) :: log')))).
    { apply IH; [pose proof (rest_length i e log'); simpl in Hle; lia|].
      apply run_of_rest; exact Hrun. }
    lia.
Qed.

(** C8: every invocation of the coordinate handler registers with the
    shared wait group before it serves, deregisters exactly once, as its
    last effect, and only after the proxy stream has been served and
    closed; hence, in any run of concurrent invocations, [shutdown] cannot
    return while some invocation is between its registration and its
    deregistration. *)
Theorem coordinate_shutdown_waits env envs log i :
  (exists mid,
     workspaceProxyCoordinate env = CWgLock :: CWgAdd :: mid ++ [CWgDone] /\
     Forall no_wg mid /\
     (accept_err env = None ->
        In (CServeWorkspaceProxy (uuid_New (rand_bytes env))) mid /\
        exists mid', mid = mid' ++ [CNcClose])) /\
  (run_of envs log -> serving (proj i log) -> shutdown_may_return log = false).
Proof.
  split.
  - unfold workspaceProxyCoordinate.
    destruct (accept_err env) as [err|]; [|destruct (serve_err env) as [serr|]].
    + exists [CWgUnlock; CAccept;
              CWrite StatusBadRequest (mkSdkResponse "Failed to accept websocket." err)].
      split; [reflexivity|]; split; [repeat constructor; discriminate | discriminate].
    + exists [CWgUnlock; CAccept; CServeMultiAgent (uuid_New (rand_bytes env)); CNetConn;
              CServeWorkspaceProxy (uuid_New (rand_bytes env));
              CConnClose StatusInternalError serr; CNcClose].
      split; [reflexivity|]; split; [repeat constructor; discriminate|].
      intros _; split; [simpl; tauto|].
      exists [CWgUnlock; CAccept; CServeMultiAgent (uuid_New (rand_bytes env)); CNetConn;
              CServeWorkspaceProxy (uuid_New (rand_bytes env));
              CConnClose StatusInternalError serr]; reflexivity.
    + exists [CWgUnlock; CAccept; CServeMultiAgent (uuid_New (rand_bytes env)); CNetConn;
              CServeWorkspaceProxy (uuid_New (rand_bytes env)); CNcClose].
      split; [reflexivity|]; split; [repeat constructor; discriminate|].
      intros _; split; [simpl; tauto|].
      exists [CWgUnlock; CAccept; CServeMultiAgent (uuid_New (rand_bytes env)); CNetConn;
              CServeWorkspaceProxy (uuid_New (rand_bytes env))]; reflexivity.
  - intros Hrun Hserv; unfold shutdown_may_return.
    rewrite (wg_count_split i).
    destruct (prefix_wg_count (envs i) _ (Hrun i)) as [_ H1].
    pose proof (run_wg_nonneg envs _ (run_of_rest envs log i Hrun)).
    rewrite (H1 Hserv); apply Z.eqb_neq; lia.
Qed.

Lemma coordinate_shutdown_waits_witness :
  run_of (fun _ => mkCoordEnv None 0 None)
    [(0, CWgLock); (0, CWgAdd); (1, CWgLock); (0, CWgUnlock); (0, CAccept)]%nat /\
  serving (proj 0 [(0, CWgLock); (0, CWgAdd); (1, CWgLock); (0, CWgUnlock); (0, CAccept)]%nat) /\
  shutdown_may_return
    [(0, CWgLock); (0, CWgAdd); (1, CWgLock); (0, CWgUnlock); (0, CAccept)]%nat = false.
Proof.
  assert (Hrun : run_of (fun _ => mkCoordEnv None 0 None)
    [(0, CWgLock); (0, CWgAdd); (1, CWgLock); (0, CWgUnlock); (0, CAccept)]%nat).
  { intro j; destruct j as [|[|j]]; simpl; eexists; reflexivity. }
  assert (Hserv : serving (proj 0 [(0, CWgLock); (0, CWgAdd); (1, CWgLock);
                                   (0, CWgUnlock); (0, CAccept)]%nat)).
  { split; simpl; [tauto | intuition discriminate]. }
  split; [exact Hrun|]; split; [exact Hserv|].
  destruct (coordinate_shutdown_waits (mkCoordEnv None 0 None) (fun _ => mkCoordEnv None 0 None)
              [(0, CWgLock); (0, CWgAdd); (1, CWgLock); (0, CWgUnlock); (0, CAccept)]%nat 0%nat)
    as [_ H].
  exact (H Hrun Hserv).
Defined.

(** ** The coalescing queue *)

Example transmitted_ex :
  transmitted [NodeUpdate 1 "a"; NodeUpdate 2 "b"; NodeUpdate 1 "c"; PeerGone 2;
               NodeUpdate 2 "d"; NodeUpdate 1 "e"]
  = [NodeUpdate 1 "e"; PeerGone 2; NodeUpdate 2 "d"].
Proof. reflexivity. Qed.

Section QueueProofs.

Variable NodeT : Type.
Implicit Types (q evs : list (Update NodeT)) (e u : Update NodeT).

Lemma about_upd p n : about p (NodeUpdate p n : Update NodeT) = true.
Proof. unfold about; simpl; rewrite Z.eqb_refl; reflexivity. Qed.

Lemma about_gone p : about p (PeerGone p : Update NodeT) = true.
Proof. unfold about; simpl; rewrite Z.eqb_refl; reflexivity. Qed.

Lemma replace_slot_filter p n q :
  replace_slot p n (filter (about p) q) = option_map (filter (about p)) (replace_slot p n q).
Proof.
  induction q as [|e q IH]; [reflexivity|].
  simpl; destruct (upd_for p e) eqn:Hu.
  - assert (Ha : about p e = true) by (unfold about; rewrite Hu; reflexivity).
    rewrite Ha; simpl; rewrite Hu, about_upd; reflexivity.
  - destruct (about p e) eqn:Ha; simpl; rewrite ?Hu, IH;
      destruct (replace_slot p n q); simpl; rewrite ?Ha; reflexivity.
Qed.

Lemma replace_slot_gones p n G l :
  Forall (fun e => gone_for p e = true) G ->
  replace_slot p n (G ++ l) = option_map (app G) (replace_slot p n l).
Proof.
  induction 1 as [|e G He _ IH]; simpl.
  - destruct (replace_slot p n l); reflexivity.
  - replace (upd_for p e) with false by (destruct e; simpl in *; congruence).
    rewrite IH; destruct (replace_slot p n l); reflexivity.
Qed.

Lemma replace_slot_other p p' n q q' :
  p' <> p -> replace_slot p' n q = Some q' -> filter (about p) q' = filter (about p) q.
Proof.
  intro Hne; revert q'; induction q as [|e q IH]; intros q' H; [discriminate|].
  simpl in H; destruct (upd_for p' e) eqn:Hu.
  - inversion H; subst; clear H.
    destruct e as [x m|x]; simpl in Hu; [|discriminate].
    apply Z.eqb_eq in Hu; subst x.
    unfold about; simpl.
    replace (p' =? p) with false by (symmetry; apply Z.eqb_neq; exact Hne).
    reflexivity.
  - destruct (replace_slot p' n q) as [r|] eqn:Hr; [|discriminate].
    inversion H; subst; simpl; rewrite (IH r eq_refl); reflexivity.
Qed.

Lemma filter_about_remove_other p p' q :
  p' <> p -> filter (about p) (remove_slot p' q) = filter (about p) q.
Proof.
  intro Hne; unfold remove_slot; induction q as [|e q IH]; [reflexivity|].
  simpl; destruct (upd_for p' e) eqn:Hu; simpl; rewrite ?IH; [|reflexivity].
  destruct e as [x m|x]; simpl in Hu; [|discriminate].
  apply Z.eqb_eq in Hu; subst x; unfold about; simpl.
  replace (p' =? p) with false by (symmetry; apply Z.eqb_neq; exact Hne).
  reflexivity.
Qed.

Lemma about_upd_eq p x (m : NodeT) : about p (NodeUpdate x m) = (x =? p).
Proof. unfold about; simpl; apply orb_false_r. Qed.

Lemma about_gone_eq p x : about p (PeerGone x : Update NodeT) = (x =? p).
Proof. reflexivity. Qed.

Lemma filter_about_remove p q :
  filter (about p) (remove_slot p q) = filter (gone_for p) q.
Proof.
  unfold remove_slot; induction q as [|e q IH]; [reflexivity|].
  destruct e as [x m|x]; cbn [filter]; simpl upd_for; simpl gone_for;
    destruct (x =? p) eqn:Hx; cbn [negb filter];
    rewrite ?about_upd_eq, ?about_gone_eq, ?Hx, ?IH; reflexivity.
Qed.

Lemma filter_gone_about p q :
  filter (gone_for p) (filter (about p) q) = filter (gone_for p) q.
Proof.
  induction q as [|e q IH]; [reflexivity|].
  destruct e as [x m|x]; cbn [filter];
    rewrite ?about_upd_eq, ?about_gone_eq;
    destruct (x =? p) eqn:Hx; cbn [filter]; simpl gone_for;
    rewrite ?Hx, ?IH; reflexivity.
Qed.

Lemma filter_gone_all p G :
  Forall (fun e => gone_for p e = true) G -> filter (gone_for p) G = G.
Proof. induction 1 as [|e G He _ IH]; simpl; [|rewrite He, IH]; reflexivity. Qed.

Lemma gones_all p evs : Forall (fun e => gone_for p e = true) (filter (gone_for p) evs).
Proof. apply Forall_forall; intros e He; apply filter_In in He; tauto. Qed.

Lemma enqueue_other p q u :
  about p u = false -> filter (about p) (enqueue q u) = filter (about p) q.
Proof.
  intro Ha; destruct u as [p' n|p'];
    [rewrite about_upd_eq in Ha | rewrite about_gone_eq in Ha]; unfold enqueue.
  - destruct (replace_slot p' n q) as [q'|] eqn:Hr.
    + apply Z.eqb_neq in Ha; exact (replace_slot_other p p' n q q' Ha Hr).
    + rewrite filter_app; cbn [filter]; rewrite about_upd_eq, Ha; apply app_nil_r.
  - rewrite filter_app, filter_about_remove_other by (apply Z.eqb_neq; exact Ha).
    cbn [filter]; rewrite about_gone_eq, Ha; apply app_nil_r.
Qed.

End QueueProofs.

Lemma transmitted_snoc {NodeT} (evs : list (Update NodeT)) e :
  transmitted (evs ++ [e]) = enqueue (transmitted evs) e.
Proof. unfold transmitted; rewrite fold_left_app; reflexivity. Qed.

Lemma pending_node_snoc {NodeT} p (evs : list (Update NodeT)) e :
  pending_node p (evs ++ [e]) =
  match e with
  | NodeUpdate p' n => if Z.eqb p' p then Some n else pending_node p evs
  | PeerGone p' => if Z.eqb p' p then None else pending_node p evs
  end.
Proof. unfold pending_node; rewrite fold_left_app; reflexivity. Qed.

(** C2: the updates about a peer [p] that the send loop transmits, after
    any sequence [evs] was enqueued before it drained the queue, are
    every [PeerGone p] of [evs] (none is dropped) followed by at most one
    [NodeUpdate] for [p]: the most recent one, and only when no
    [PeerGone p] came after it. In particular no update of [p] is
    transmitted after a newer one. *)
Theorem transmitted_coalesced (NodeT : Type) (p : UUID) (evs : list (Update NodeT)) :
  filter (about p) (transmitted evs) =
  filter (gone_for p) evs ++
  match pending_node p evs with Some n => [NodeUpdate p n] | None => [] end.
Proof.
  induction evs as [|e evs IH] using rev_ind; [reflexivity|].
  rewrite transmitted_snoc, pending_node_snoc, filter_app.
  destruct (about p e) eqn:Ha.
  - destruct e as [x n|x]; [rewrite about_upd_eq in Ha | rewrite about_gone_eq in Ha];
      apply Z.eqb_eq in Ha; subst x; rewrite Z.eqb_refl; cbn [filter gone_for];
      rewrite ?Z.eqb_refl; unfold enqueue.
    + pose proof (replace_slot_filter NodeT p n (transmitted evs)) as Hf.
      rewrite IH, (replace_slot_gones NodeT p n _ _ (gones_all NodeT p evs)) in Hf.
      destruct (replace_slot p n (transmitted evs)) as [q'|] eqn:Hr;
        destruct (pending_node p evs) as [m|]; cbn [replace_slot upd_for option_map] in Hf;
        rewrite ?Z.eqb_refl in Hf; try discriminate.
      * inversion Hf as [Hq]; rewrite app_nil_r; reflexivity.
      * rewrite filter_app, IH; cbn [filter]; rewrite about_upd_eq, Z.eqb_refl; reflexivity.
    + rewrite filter_app, filter_about_remove; cbn [filter]; rewrite about_gone_eq, Z.eqb_refl.
      rewrite <- (filter_gone_about NodeT p (transmitted evs)), IH, filter_app,
        (filter_gone_all NodeT p _ (gones_all NodeT p evs)).
      destruct (pending_node p evs); cbn [filter gone_for]; rewrite !app_nil_r; reflexivity.
  - rewrite (enqueue_other NodeT p _ e Ha), IH.
    destruct e as [x n|x]; [rewrite about_upd_eq in Ha | rewrite about_gone_eq in Ha];
      rewrite Ha; cbn [filter gone_for]; rewrite ?Ha, app_nil_r; reflexivity.
Qed.

(** ** The multi-agent handle *)

Section MultiAgentProofs.

Variable NodeT : Type.

Lemma run_next_ended subs (self : option NodeT) k :
  run_next NodeT k (mkMA true subs self [] true) = repeat (NErr ErrClosed) k.
Proof. induction k as [|k IH]; simpl; [reflexivity | rewrite IH; reflexivity]. Qed.

Lemma run_next_closed subs (self : option NodeT) q k :
  run_next NodeT (List.length q + S k) (mkMA true subs self q false) =
  map NBatch q ++ NEnd :: repeat (NErr ErrClosed) k.
Proof.
  induction q as [|b q IH]; simpl.
  - rewrite run_next_ended; reflexivity.
  - rewrite IH; reflexivity.
Qed.

End MultiAgentProofs.

Example run_next_ex :
  run_next nat 5 (mkMA true [] None [[1%nat]; [2%nat]] false) =
  [NBatch [1%nat]; NBatch [2%nat]; NEnd; NErr ErrClosed; NErr ErrClosed].
Proof. reflexivity. Qed.

(** C6: on a closed multi-agent handle, [subscribe_agent],
    [unsubscribe_agent], [update_self] and [close] all return [ErrClosed]
    and leave the handle unchanged, [is_closed] is true, and successive
    [next_update] calls return the pending batches with [more = true],
    then [more = false] exactly once, then only [ErrClosed]. *)
Theorem multi_agent_closed (NodeT : Type) (s : MAState NodeT) a n k :
  ma_closed NodeT s = true ->
  subscribe_agent NodeT s a = (Some ErrClosed, s) /\
  unsubscribe_agent NodeT s a = (Some ErrClosed, s) /\
  update_self NodeT s n = (Some ErrClosed, s) /\
  ma_close NodeT s = (Some ErrClosed, s) /\
  is_closed NodeT s = true /\
  (ma_end_sent NodeT s = false ->
   run_next NodeT (List.length (ma_queue NodeT s) + S k) s =
   map NBatch (ma_queue NodeT s) ++ NEnd :: repeat (NErr ErrClosed) k).
Proof.
  intro Hc; unfold subscribe_agent, unsubscribe_agent, update_self, ma_close, is_closed.
  rewrite Hc; repeat split; try reflexivity.
  intro He; destruct s as [c subs self q es]; simpl in *; subst c es.
  apply run_next_closed.
Qed.

Lemma multi_agent_closed_witness :
  ma_closed nat (mkMA true [] None [[1%nat]] false) = true /\
  ma_end_sent nat (mkMA true [] None [[1%nat]] false) = false /\
  run_next nat 3 (mkMA true [] None [[1%nat]] false) =
    [NBatch [1%nat]; NEnd; NErr ErrClosed].
Proof.
  destruct (multi_agent_closed nat (mkMA true [] None [[1%nat]] false) 0 3%nat 1%nat eq_refl)
    as (_ & _ & _ & _ & _ & H).
  split; [reflexivity|]; split; [reflexivity|].
  exact (H eq_refl).
Defined.

(** * Further properties of the handlers *)

(** ** [agentIsLegacy] *)

(** The address of the first entry of a node's [Addresses], if any. *)
Definition first_addr (n : TNode) : option Addr :=
  option_map Prefix_Addr (hd_error (Addresses n)).

(** The handler's answer for a known agent depends only on the address
    of the node's first prefix: not on the prefix length, not on the
    later addresses, not on the other fields of the node. *)
Theorem agentIsLegacy_first_addr_only parse node1 node2 param id n1 n2 :
  parse param = Some id -> node1 id = Some n1 -> node2 id = Some n2 ->
  first_addr n1 = first_addr n2 ->
  agentIsLegacy parse node1 param = agentIsLegacy parse node2 param.
Proof.
  intros Hp H1 H2 Hf.
  rewrite (agentIsLegacy_parsed parse node1 param id Hp),
          (agentIsLegacy_parsed parse node2 param id Hp), H1, H2.
  unfold first_addr in Hf.
  destruct (Addresses n1) as [|a1 r1], (Addresses n2) as [|a2 r2];
    simpl in Hf; try discriminate; [reflexivity|].
  inversion Hf as [He]; rewrite He; reflexivity.
Qed.

Lemma agentIsLegacy_first_addr_only_witness :
  agentIsLegacy (fun _ => Some 7) (fun _ => Some (mkNode 1 [mkPrefix WorkspaceAgentIP 128])) "x"%string =
  agentIsLegacy (fun _ => Some 7)
    (fun _ => Some (mkNode 2 [mkPrefix WorkspaceAgentIP 64; mkPrefix (mkAddr 1 Z4) 32])) "x"%string.
Proof.
  apply (agentIsLegacy_first_addr_only _ _ _ _ 7
           (mkNode 1 [mkPrefix WorkspaceAgentIP 128])
           (mkNode 2 [mkPrefix WorkspaceAgentIP 64; mkPrefix (mkAddr 1 Z4) 32]));
    reflexivity.
Defined.

(** ** [workspaceProxyCoordinate] *)

Definition is_serve_multi_agent (e : CEvent) : bool :=
  match e with CServeMultiAgent _ => true | _ => false end.

Definition is_serve_proxy (e : CEvent) : bool :=
  match e with CServeWorkspaceProxy _ => true | _ => false end.

Definition is_nc_close (e : CEvent) : bool :=
  match e with CNcClose => true | _ => false end.

(** Effects on the coordinator or on the upgraded stream. *)
Definition touches_stream (e : CEvent) : bool :=
  match e with
  | CServeMultiAgent _ | CNetConn | CServeWorkspaceProxy _ | CConnClose _ _ | CNcClose => true
  | _ => false
  end.

Definition count_ev (f : CEvent -> bool) (l : list CEvent) : nat := List.length (filter f l).

(** On every path the handler adds one to the wait group and marks it
    done once: a completed invocation leaves the counter unchanged. *)
Theorem workspaceProxyCoordinate_wg_balanced env :
  wg_count (workspaceProxyCoordinate env) = 0 /\
  count_ev (fun e => match e with CWgAdd => true | _ => false end)
    (workspaceProxyCoordinate env) = 1%nat /\
  count_ev (fun e => match e with CWgDone => true | _ => false end)
    (workspaceProxyCoordinate env) = 1%nat.
Proof.
  unfold workspaceProxyCoordinate.
  destruct (accept_err env); [|destruct (serve_err env)]; repeat split; reflexivity.
Qed.

(** When the websocket upgrade fails, the handler registers no
    multi-agent with the coordinator and touches no stream. *)
Theorem workspaceProxyCoordinate_failed_upgrade env err :
  accept_err env = Some err ->
  existsb touches_stream (workspaceProxyCoordinate env) = false.
Proof. intro Ha; unfold workspaceProxyCoordinate; rewrite Ha; reflexivity. Qed.

Lemma workspaceProxyCoordinate_failed_upgrade_witness :
  existsb touches_stream (workspaceProxyCoordinate (mkCoordEnv (Some "bad handshake") 0 None))
  = false.
Proof. apply (workspaceProxyCoordinate_failed_upgrade _ "bad handshake"); reflexivity. Defined.

(** After a successful upgrade, the handler calls [ServeMultiAgent] once
    and [ServeWorkspaceProxy] once, with the handle of the same peer id,
    and closes the stream once. *)
Theorem workspaceProxyCoordinate_serves_once env :
  accept_err env = None ->
  count_ev is_serve_multi_agent (workspaceProxyCoordinate env) = 1%nat /\
  count_ev is_serve_proxy (workspaceProxyCoordinate env) = 1%nat /\
  count_ev is_nc_close (workspaceProxyCoordinate env) = 1%nat /\
  exists id, In (CServeMultiAgent id) (workspaceProxyCoordinate env) /\
             In (CServeWorkspaceProxy id) (workspaceProxyCoordinate env).
Proof.
  intro Ha; unfold workspaceProxyCoordinate; rewrite Ha.
  destruct (serve_err env); (split; [reflexivity|]); (split; [reflexivity|]);
    (split; [reflexivity|]); exists (uuid_New (rand_bytes env)); simpl; tauto.
Qed.

Lemma workspaceProxyCoordinate_serves_once_witness :
  count_ev is_serve_multi_agent (workspaceProxyCoordinate (mkCoordEnv None 9 (Some "x"))) = 1%nat.
Proof.
  destruct (workspaceProxyCoordinate_serves_once (mkCoordEnv None 9 (Some "x")) eq_refl)
    as [H _]; exact H.
Defined.





(** *** Concurrent invocations and the wait group *)

Lemma proj_app i l1 l2 : proj i (l1 ++ l2) = proj i l1 ++ proj i l2.
Proof. unfold proj; rewrite filter_app, map_app; reflexivity. Qed.

Lemma run_of_prefix envs pre post : run_of envs (pre ++ post) -> run_of envs pre.
Proof.
  intros H i; destruct (H i) as [l3 Hl3]; rewrite proj_app, <- app_assoc in Hl3.
  eexists; exact Hl3.
Qed.

(** [sync.WaitGroup] panics when its counter goes negative. In any
    interleaving of coordinate handler invocations the counter is never
    negative, at any point of the run. *)
Theorem coordinate_wg_never_negative envs log pre post :
  run_of envs log -> log = pre ++ post -> 0 <= wg_count (map snd pre).
Proof.
  intros Hrun ->; apply (run_wg_nonneg envs); exact (run_of_prefix envs pre post Hrun).
Qed.

Lemma coordinate_wg_never_negative_witness :
  0 <= wg_count (map snd [(0, CWgLock); (0, CWgAdd)]%nat).
Proof.
  apply (coordinate_wg_never_negative (fun _ => mkCoordEnv None 0 None)
           [(0, CWgLock); (0, CWgAdd); (0, CWgUnlock)]%nat
           [(0, CWgLock); (0, CWgAdd)]%nat [(0, CWgUnlock)]%nat); [|reflexivity].
  intro j; destruct j as [|j]; simpl; eexists; reflexivity.
Defined.

Lemma prefix_wg_count_idle env p :
  prefix_of p (workspaceProxyCoordinate env) -> ~ serving p -> wg_count p = 0.
Proof.
  destruct (trace_shape env) as [m [Ht Hm]]; rewrite Ht; intros [q Hq] Hns.
  unfold serving in Hns.
  destruct p as [|e1 p]; [reflexivity|].
  inversion Hq as [[He1 Hq']]; subst e1.
  destruct p as [|e2 p]; [reflexivity|].
  inversion Hq' as [[He2 Hq'']]; subst e2.
  destruct (app_snoc_split _ _ _ _ (eq_sym Hq'')) as [[r Hr] | Hr]; subst.
  - exfalso; apply Hns; split; [right; left; reflexivity|].
    intros [H|[H|H]]; try discriminate.
    apply Forall_app in Hm as [Hp _].
    rewrite Forall_forall in Hp; apply (Hp _ H); reflexivity.
  - simpl; rewrite wg_count_app, (wg_count_no_wg m Hm); reflexivity.
Qed.

Lemma run_wg_zero envs log :
  run_of envs log -> (forall i, ~ serving (proj i log)) -> wg_count (map snd log) = 0.
Proof.
  remember (List.length log) as n eqn:Hn; assert (Hle : (List.length log <= n)%nat) by lia.
  clear Hn; revert log Hle; induction n as [|n IH]; intros log Hle Hrun Hns.
  - destruct log; [reflexivity | simpl in Hle; lia].
  - destruct log as [|[i e] log']; [reflexivity|].
    rewrite (wg_count_split i), (prefix_wg_count_idle (envs i) _ (Hrun i) (Hns i)).
    rewrite IH; [reflexivity | pose proof (rest_length i e log'); simpl in Hle; lia
                | apply run_of_rest; exact Hrun |].
    intro j; rewrite proj_rest; destruct (Nat.eqb j i); [intros [[] _] | apply Hns].
Qed.

(** The wait group's counter is zero, so [shutdown] can return, exactly
    when no invocation of the coordinate handler is between its
    registration and its deregistration. *)
Theorem coordinate_shutdown_iff_idle envs log :
  run_of envs log ->
  (shutdown_may_return log = true <-> forall i, ~ serving (proj i log)).
Proof.
  intro Hrun; unfold shutdown_may_return; rewrite Z.eqb_eq; split.
  - intros H0 i Hs.
    rewrite (wg_count_split i) in H0.
    destruct (prefix_wg_count (envs i) _ (Hrun i)) as [_ H1].
    pose proof (run_wg_nonneg envs _ (run_of_rest envs log i Hrun)).
    rewrite (H1 Hs) in H0; lia.
  - apply (run_wg_zero envs); exact Hrun.
Qed.

Lemma coordinate_shutdown_iff_idle_witness :
  shutdown_may_return (map (fun e => (0%nat, e)) (workspaceProxyCoordinate (mkCoordEnv None 0 None)))
  = true.
Proof.
  apply (coordinate_shutdown_iff_idle (fun _ => mkCoordEnv None 0 None)).
  - intro j; destruct j as [|j]; simpl; eexists; [rewrite app_nil_r|]; reflexivity.
  - intros j [Ha Hd]; destruct j as [|j]; simpl in *; [apply Hd; tauto | exact Ha].
Defined.

(** ** [uuid.New] *)

(** The peer id that [uuid.New] produces is always a well-formed RFC 4122
    version-4 UUID: the high nibble of byte 6 is 4 and the two high bits
    of byte 8 are [10]. *)
Theorem uuid_New_version_variant rnd :
  Z.shiftr (get_byte (uuid_New rnd) 6) 4 = 4 /\
  Z.shiftr (get_byte (uuid_New rnd) 8) 6 = 2.
Proof. exact (uuid_New_v4 rnd). Qed.
